(** * firedrake/ufl_expr.py: Arguments, form operators and boundary-aware actions

    A shallow embedding of [python/firedrake/ufl_expr.py].  Python objects
    are values that carry their identity; the algebra engine (UFL) and the
    assembly collaborator are parameters of the development. *)

From Stdlib Require Import ZArith QArith Lia FunctionalExtensionality.
From stdpp Require Import base option list strings gmap.

Local Open Scope Z_scope.

(** ** Collaborator data *)

(** Modelled from the spec: a finite element is known here by its polynomial
    family, its degree and its value shape; [==] on elements is structural. *)
Record FiniteElement := mkFiniteElement {
  family : string;
  degree : nat;
  value_shape : list nat
}.

#[global] Instance FiniteElement_eq_dec : EqDecision FiniteElement.
Proof. solve_decision. Defined.

(** Modelled from the spec: a function space is an opaque object that
    supplies its element description ([ufl_element()]). *)
Record FunctionSpace := mkFunctionSpace {
  fs_uid : nat;
  ufl_element : FiniteElement
}.

#[global] Instance FunctionSpace_eq_dec : EqDecision FunctionSpace.
Proof. solve_decision. Defined.

(** A reference to a [core_types.Function]: the identity of the object (its
    cell in the store of degree-of-freedom data) and the function space it
    was built on, which never changes. *)
Record Function := mkFunction {
  fn_loc : nat;
  fn_space : FunctionSpace
}.

#[global] Instance Function_eq_dec : EqDecision Function.
Proof. solve_decision. Defined.

Definition function_space_of (f : Function) : FunctionSpace := fn_space f.

(** ** Argument objects *)

(** An [Argument] instance.  [_element] and [_count] are the state kept by
    the base class [ufl.argument.Argument]; [_function_space] is the
    attribute added by the subclass; [arg_oid] is the identity of the Python
    object, so that "the same object" and "an equal object" differ. *)
Record Argument := mkArgument {
  arg_oid : nat;
  _element : FiniteElement;
  _function_space : FunctionSpace;
  _count : Z
}.

#[global] Instance Argument_eq_dec : EqDecision Argument.
Proof. solve_decision. Defined.

Definition element (self : Argument) : FiniteElement := _element self.
Definition count (self : Argument) : Z := _count self.
Definition function_space (self : Argument) : FunctionSpace := _function_space self.

(** ** Python values that callers may pass *)

#[warnings="-register-all"]
Inductive pyval : Type :=
| PyInt (n : Z)
| PyFloat (q : Q)
| PyStr (s : string)
| PyElement (e : FiniteElement)
| PyFunctionSpace (V : FunctionSpace)
| PyArgument (a : Argument)
| PyFunction (f : Function)
| PyTuple (items : list pyval).



Definition is_Function (v : pyval) : bool :=
  match v with PyFunction _ => true | _ => false end.

(** [v == n] for an int [n]: Python compares numbers by value across the
    numeric types, so the float [1.0] equals the int [1]. *)
Definition py_eq_int (v : pyval) (n : Z) : bool :=
  match v with
  | PyInt m => Z.eqb m n
  | PyFloat q => Qeq_bool q (inject_Z n)
  | _ => false
  end.

(** [v == e] for a finite element [e]. *)
Definition py_eq_element (v : pyval) (e : FiniteElement) : bool :=
  match v with
  | PyElement e' => bool_decide (e' = e)
  | _ => false
  end.

(** ** Exceptions, engine state and the monad of the symbolic layer *)

(** The message of a failed assertion: a literal, or [template % arg] with
    the text of [arg] in the place of [%s]. *)
Inductive message : Type :=
| Plain (text : string)
| Formatted (template : string) (arg : pyval).

Inductive exn : Type :=
| ValidationError (msg : message)  (* a failed [ufl_assert] *)
| RuntimeError (msg : string)
| ValueError (msg : string)        (* a tuple unpacked to the wrong length *)
| TypeError (msg : string)         (* [%] given a tuple of the wrong length *)
| PropagatedError (msg : string).  (* raised inside the algebra engine *)

Inductive outcome (A : Type) : Type :=
| Return (a : A)
| Raise (e : exn).

Arguments Return {A} a.
Arguments Raise {A} e.

(** What constructing objects changes: the next free object identity and
    the class counter [Argument._globalcount] of the base class. *)
Record engine := mkEngine {
  next_oid : nat;
  _globalcount : Z
}.

Definition M (A : Type) : Type := engine -> outcome A * engine.

Definition ret {A} (a : A) : M A := fun w => (Return a, w).
Definition raise {A} (e : exn) : M A := fun w => (Raise e, w).
Definition bind {A B} (m : M A) (k : A -> M B) : M B :=
  fun w => match m w with
           | (Return a, w') => k a w'
           | (Raise e, w') => (Raise e, w')
           end.

Notation "x <~ m ;; k" := (bind m (fun x => k))
  (at level 100, m at next level, right associativity).
Notation "m ;;; k" := (bind m (fun _ => k))
  (at level 100, right associativity).

(** [ufl_assert(condition, message)]. *)
Definition ufl_assert (condition : bool) (message : message) : M unit :=
  if condition then ret tt else raise (ValidationError message).

(** [template % v] for a template with one [%s].  A tuple on the right of
    [%] is the tuple of arguments: one item fills the [%s], any other
    number of items is a [TypeError]; every other object is the single
    argument.  Python evaluates this argument of [ufl_assert] before the
    call, whether or not the assertion holds. *)
Definition py_format (template : string) (v : pyval) : M message :=
  match v with
  | PyTuple [] => raise (TypeError "not enough arguments for format string")
  | PyTuple [item] => ret (Formatted template item)
  | PyTuple _ =>
      raise (TypeError "not all arguments converted during string formatting")
  | _ => ret (Formatted template v)
  end.

(** [Argument.__init__(element, function_space, count=None)].

    Modelled from the spec: the base constructor stores the element and the
    count; with [count=None] the argument is freshly numbered from the class
    counter, and the counter always ends above the count just stored.  All
    callers in this file pass an element and an int or [None]. *)
Definition Argument_init (element : FiniteElement) (function_space : FunctionSpace)
    (count : option Z) : M Argument :=
  fun w =>
    let c := default (_globalcount w) count in
    (Return {| arg_oid := next_oid w;
               _element := element;
               _function_space := function_space;
               _count := c |},
     {| next_oid := S (next_oid w);
        _globalcount := if (_globalcount w <=? c) then c + 1 else _globalcount w |}).

(** A local variable of [reconstruct] after the three defaulting
    statements: it holds either the very reference stored in [self] or the
    object the caller passed (which then compared unequal to the stored
    one).  The [is] tests of line 56 ask which of the two it is. *)
Inductive local : Type :=
| Own
| Given (v : pyval).

Definition default_element (self : Argument) (element : option pyval) : local :=
  match element with
  | None => Own
  | Some e => if py_eq_element e (_element self) then Own else Given e
  end.

Definition default_count (self : Argument) (count : option pyval) : local :=
  match count with
  | None => Own
  | Some c => if py_eq_int c (_count self) then Own else Given c
  end.

Definition default_function_space (self : Argument)
    (function_space : option FunctionSpace) : FunctionSpace :=
  match function_space with
  | None => _function_space self
  | Some V => if bool_decide (V = _function_space self)
              then _function_space self else V
  end.

Definition element_value (self : Argument) (l : local) : pyval :=
  match l with Own => PyElement (_element self) | Given v => v end.

Definition count_value (self : Argument) (l : local) : pyval :=
  match l with Own => PyInt (_count self) | Given v => v end.

Definition is_own (l : local) : bool :=
  match l with Own => true | Given _ => false end.

(** [Argument.reconstruct(element=None, function_space=None, count=None)].
    Each of the two [isinstance] assertions is its message, formatted
    first, and then a pattern match, in the order of the source; nothing
    checks [function_space], which is typed here because every caller
    passes a function space or nothing. *)
Definition reconstruct (self : Argument) (element : option pyval)
    (function_space : option FunctionSpace) (count : option pyval) : M Argument :=
  let function_space := default_function_space self function_space in
  let element := default_element self element in
  let count := default_count self count in
  if is_own count && is_own element then ret self
  else
    not_an_element <~ py_format "Expecting an element, not %s"
                        (element_value self element) ;;
    match element_value self element with
    | PyElement e =>
        not_an_int <~ py_format "Expecting an int, not %s"
                        (count_value self count) ;;
        match count_value self count with
        | PyInt c =>
            ufl_assert (bool_decide (value_shape e = value_shape (_element self)))
              (Plain "Cannot reconstruct an Argument with a different value shape.") ;;;
            Argument_init e function_space (Some c)
        | _ => raise (ValidationError not_an_int)
        end
    | _ => raise (ValidationError not_an_element)
    end.

(** The object passed for a parameter is a tuple that [%] cannot format. *)
Definition format_fails (o : option pyval) : Prop :=
  exists items, o = Some (PyTuple items) /\ length items <> 1%nat.


(** [TestFunction(function_space)] and [TrialFunction(function_space)]. *)
Definition TestFunction (function_space : FunctionSpace) : M Argument :=
  Argument_init (ufl_element function_space) function_space (Some (-2)).

Definition TrialFunction (function_space : FunctionSpace) : M Argument :=
  Argument_init (ufl_element function_space) function_space (Some (-1)).

(** ** Form operators and actions *)

(** A Dirichlet boundary condition, opaque but for its [node_set]. *)
Record DirichletBC := mkDirichletBC {
  node_set : gset nat
}.

(** What [out.assign(expr, ...)] is given: a constant or another Function. *)
Inductive rhs (V : Type) : Type :=
| Const (c : V)
| Fn (f : Function).

Arguments Const {V} c.
Arguments Fn {V} f.

Section Operators.

(** Symbolic forms, and the algebra engine's operators on them. *)
Variable Form : Type.
Variable ufl_derivative : Form -> pyval -> pyval -> string + Form.
Variable ufl_adjoint : Form -> pyval -> string + Form.
Variable ufl_action : Form -> Function -> Form.
Variable extract_arguments : Form -> list Argument.

(** An engine call either yields a form or raises the engine's own error,
    which is not intercepted. *)
Definition engine_call (r : string + Form) : M Form :=
  match r with
  | inl msg => raise (PropagatedError msg)
  | inr f => ret f
  end.

(** [derivative(form, u, du=None)]. *)
Definition derivative (form : Form) (u : pyval) (du : option pyval) : M Form :=
  match du with
  | None =>
      match u with
      | PyFunction f =>
          let V := function_space_of f in
          du <~ Argument_init (ufl_element V) V None ;;
          engine_call (ufl_derivative form u (PyArgument du))
      | _ => raise (RuntimeError "Can't compute derivative for form")
      end
  | Some du => engine_call (ufl_derivative form u du)
  end.

(** [adjoint(form, reordered_arguments=None)].  The tuple is built left to
    right, so the replacement made from [u] is constructed first. *)
Definition adjoint (form : Form) (reordered_arguments : option pyval) : M Form :=
  match reordered_arguments with
  | None =>
      match extract_arguments form with
      | [v; u] =>
          u' <~ Argument_init (element u) (function_space u) None ;;
          v' <~ Argument_init (element v) (function_space v) None ;;
          engine_call (ufl_adjoint form (PyTuple [PyArgument u'; PyArgument v']))
      | _ => raise (ValueError "wrong number of values to unpack")
      end
  | Some reordered_arguments => engine_call (ufl_adjoint form reordered_arguments)
  end.

(** [class Action]: the three attributes set by [__init__]. *)
Record Action := mkAction {
  _a : Form;
  _x : Function;
  _bcs : option (list DirichletBC)
}.



(** *** The store of function data *)

(** Degree-of-freedom values: one value of type [V] per node number.
    [zero] is the number [0] that [assign(0, ...)] writes. *)
Context {V : Type} (zero : V).

(** Assembling a form reads the current data of the functions it mentions. *)
Variable assemble_values : Form -> gmap nat (nat -> V) -> nat -> V.
Variable test_space : Form -> FunctionSpace.

Definition values_of (h : gmap nat (nat -> V)) (f : Function) : nat -> V :=
  default (fun _ => zero) (h !! fn_loc f).

(** Modelled from the spec: [core_types.Function(x)] for a Function [x] is
    construction by copy, a new object on the space of [x] holding the
    values of [x]. *)
Definition Function_init (x : Function) (h : gmap nat (nat -> V))
    : Function * gmap nat (nat -> V) :=
  let l := fresh (dom h) in
  (mkFunction l (fn_space x), <[l := values_of h x]> h).

(** Modelled from the spec: [out.assign(expr, subset=None)] overwrites the
    values of [out] with those of [expr], at every node or only at the
    nodes of [subset]. *)
Definition assign (out : Function) (expr : rhs V) (subset : option (gset nat))
    (h : gmap nat (nat -> V)) : gmap nat (nat -> V) :=
  let new := match expr with
             | Const c => fun _ => c
             | Fn f => values_of h f
             end in
  let old := values_of h out in
  <[fn_loc out :=
      match subset with
      | None => new
      | Some s => fun i => if bool_decide (i ∈ s) then new i else old i
      end]> h.

(** Modelled from the spec: [solving.assemble(form, tensor=None)] returns
    the assembled form as a Function, written into [tensor] when one is
    given and into a new Function otherwise. *)
Definition solving_assemble (form : Form) (tensor : option Function)
    (h : gmap nat (nat -> V)) : Function * gmap nat (nat -> V) :=
  let vals := assemble_values form h in
  match tensor with
  | None => let l := fresh (dom h) in
            (mkFunction l (test_space form), <[l := vals]> h)
  | Some t => (t, <[fn_loc t := vals]> h)
  end.

(** [Action.assemble(tensor=None)]. *)
Definition assemble (self : Action) (tensor : option Function)
    (h : gmap nat (nat -> V)) : Function * gmap nat (nat -> V) :=
  match _bcs self with
  | None => solving_assemble (ufl_action (_a self) (_x self)) tensor h
  | Some bcs =>
      let '(out, h) :=
        match tensor with
        | None => Function_init (_x self) h
        | Some tensor => (tensor, assign tensor (Fn (_x self)) None h)
        end in
      let h := foldl (fun h bc => assign out (Const zero) (Some (node_set bc)) h) h bcs in
      let '(r, h) := solving_assemble (ufl_action (_a self) out) None h in
      let h := assign out (Fn r) None h in
      let h := foldl (fun h bc => assign out (Fn (_x self)) (Some (node_set bc)) h) h bcs in
      (out, h)
  end.

End Operators.


(** ** The boundary passes, as the steps of section 4.2 describe them *)

Section Passes.

Context {V : Type} (zero : V).

(** Zero [d] at the nodes of [s]; copy [src] into [d] at the nodes of [s]. *)
Definition zero_at (s : gset nat) (d : nat -> V) : nat -> V :=
  fun i => if bool_decide (i ∈ s) then zero else d i.

Definition copy_at (s : gset nat) (src d : nat -> V) : nat -> V :=
  fun i => if bool_decide (i ∈ s) then src i else d i.

(** One pass over the conditions, in the order supplied. *)
Definition zero_pass (bcs : list DirichletBC) (d : nat -> V) : nat -> V :=
  foldl (fun d bc => zero_at (node_set bc) d) d bcs.

Definition restore_pass (bcs : list DirichletBC) (src d : nat -> V) : nat -> V :=
  foldl (fun d bc => copy_at (node_set bc) src d) d bcs.

End Passes.

(** Node [i] is constrained by one of the conditions. *)
Definition constrained (bcs : list DirichletBC) (i : nat) : bool :=
  existsb (fun bc => bool_decide (i ∈ node_set bc)) bcs.

(** ** The stages of [Action.assemble], named *)

Section Stages.

Context {V : Type} (zero : V).

(** One loop of [assemble]: an assignment of [e] into [out] per boundary
    condition, at its node set, in the order of the list. *)
Definition pass (out : Function) (e : rhs V) (bcs : list DirichletBC)
    (h : gmap nat (nat -> V)) : gmap nat (nat -> V) :=
  foldl (fun h bc => assign zero out e (Some (node_set bc)) h) h bcs.

(** The function [assemble] works on: a new one, or [tensor]. *)
Definition out_of (x : Function) (tensor : option Function)
    (h : gmap nat (nat -> V)) : Function :=
  match tensor with
  | None => mkFunction (fresh (dom h)) (fn_space x)
  | Some t => t
  end.

(** The store after the first loop, when [out] has been given the values
    of [x] and then zeroed at the boundary nodes. *)
Definition zeroed (x : Function) (tensor : option Function)
    (bcs : list DirichletBC) (h : gmap nat (nat -> V)) : gmap nat (nat -> V) :=
  pass (out_of x tensor h) (Const zero) bcs
    (<[fn_loc (out_of x tensor h) := values_of zero h x]> h).

End Stages.

(** ** A small instance: two functions on an interval *)

Module Interval.

Definition P1 : FiniteElement := mkFiniteElement "CG" 1 [].
Definition P2 : FiniteElement := mkFiniteElement "CG" 2 [].
Definition V1 : FunctionSpace := mkFunctionSpace 0 P1.
Definition V2 : FunctionSpace := mkFunctionSpace 1 P1.

Definition w0 : engine := mkEngine 4 2.

(** [TestFunction(V1)] and [TrialFunction(V1)], built earlier; and an
    argument numbered 1. *)
Definition v : Argument := mkArgument 0 P1 V1 (-2).
Definition u : Argument := mkArgument 1 P1 V1 (-1).

(** Forms: a bilinear form and its action on a coefficient. *)
Inductive form : Type :=
| Bilinear
| ActionOn (f : Function)
| Adjoint (args : pyval)
| Derivative (u du : pyval).

Definition ufl_action (a : form) (f : Function) : form := ActionOn f.
Definition ufl_adjoint (a : form) (args : pyval) : string + form := inr (Adjoint args).
Definition ufl_derivative (a : form) (u du : pyval) : string + form :=
  inr (Derivative u du).
Definition extract_arguments (a : form) : list Argument :=
  match a with Bilinear => [v; u] | _ => [] end.

(** Assembling the action on [f] yields, at node [i], the value of [f]
    there plus 100. *)
Definition assemble_values (a : form) (h : gmap nat (nat -> Z)) (i : nat) : Z :=
  match a with
  | ActionOn f => default (fun _ => 0) (h !! fn_loc f) i + 100
  | _ => 0
  end.
Definition test_space (a : form) : FunctionSpace := V1.

(** The coefficient [x] (values 5, 6, 7, ...), a second function [t]
    (values 1, 1, ...), and two overlapping boundary conditions. *)
Definition x : Function := mkFunction 0 V1.
Definition t : Function := mkFunction 1 V1.
Definition h : gmap nat (nat -> Z) :=
  {[ 0%nat := fun i => 5 + Z.of_nat i; 1%nat := fun _ => 1 ]}.
Definition bc1 : DirichletBC := mkDirichletBC {[ 0%nat; 1%nat ]}.
Definition bc2 : DirichletBC := mkDirichletBC {[ 1%nat; 2%nat ]}.

Definition assemble' :=
  assemble form ufl_action 0 assemble_values test_space.

End Interval.

(** * Properties *)

(** ** Running the monad *)

Lemma bind_Return {A B} (m : M A) (k : A -> M B) w a w' :
  m w = (Return a, w') -> bind m k w = k a w'.
Proof. intros H. unfold bind. now rewrite H. Qed.

Lemma Argument_init_Return e fs c w :
  Argument_init e fs c w =
  (Return (mkArgument (next_oid w) e fs (default (_globalcount w) c)),
   mkEngine (S (next_oid w))
            (if _globalcount w <=? default (_globalcount w) c
             then default (_globalcount w) c + 1 else _globalcount w)).
Proof. reflexivity. Qed.

(** ** Argument.reconstruct *)

Lemma default_element_Given self e v :
  default_element self e = Given v ->
  e = Some v /\ py_eq_element v (_element self) = false.
Proof.
  unfold default_element. destruct e as [v'|]; [| discriminate].
  destruct (py_eq_element v' (_element self)) eqn:E; [discriminate |].
  intros [= ->]. now split.
Qed.

Lemma default_count_Given self c v :
  default_count self c = Given v ->
  c = Some v /\ py_eq_int v (_count self) = false.
Proof.
  unfold default_count. destruct c as [v'|]; [| discriminate].
  destruct (py_eq_int v' (_count self)) eqn:E; [discriminate |].
  intros [= ->]. now split.
Qed.

(** Formatting succeeds, or the object is a tuple not of length one. *)
Lemma py_format_inv template v w :
  py_format template v w
  = (Return (Formatted template
               (match v with PyTuple [item] => item | _ => v end)), w) \/
  exists msg items,
    py_format template v w = (Raise (TypeError msg), w) /\
    v = PyTuple items /\ length items <> 1%nat.
Proof.
  destruct v as [| | | | | | |items]; try (left; reflexivity).
  destruct items as [|item [|item' items]].
  - right. eexists; eexists. repeat split. discriminate.
  - left. reflexivity.
  - right. eexists; eexists. repeat split. discriminate.
Qed.

(** If neither the element nor the count differs from the stored one,
    [reconstruct] returns [self] itself, whatever [function_space] is. *)
Lemma reconstruct_same self e fs c w :
  default_element self e = Own ->
  default_count self c = Own ->
  reconstruct self e fs c w = (Return self, w).
Proof.
  intros He Hc. unfold reconstruct. rewrite He, Hc. reflexivity.
Qed.

(** On the other path a valid element and an int count give a newly
    constructed Argument with the merged fields. *)
Lemma reconstruct_fresh self e fs c w e' c' :
  is_own (default_count self c) && is_own (default_element self e) = false ->
  element_value self (default_element self e) = PyElement e' ->
  count_value self (default_count self c) = PyInt c' ->
  value_shape e' = value_shape (_element self) ->
  reconstruct self e fs c w =
  Argument_init e' (default_function_space self fs) (Some c') w.
Proof.
  intros Hown He Hc Hs. unfold reconstruct. rewrite Hown, He, Hc.
  rewrite bool_decide_eq_true_2 by exact Hs. reflexivity.
Qed.

(** The path past the early return, step by step. *)
Lemma reconstruct_checked self e fs c w :
  is_own (default_count self c) && is_own (default_element self e) = false ->
  reconstruct self e fs c w =
  match py_format "Expecting an element, not %s"
          (element_value self (default_element self e)) w with
  | (Raise ex, w1) => (Raise ex, w1)
  | (Return not_an_element, w1) =>
      match element_value self (default_element self e) with
      | PyElement e' =>
          match py_format "Expecting an int, not %s"
                  (count_value self (default_count self c)) w1 with
          | (Raise ex, w2) => (Raise ex, w2)
          | (Return not_an_int, w2) =>
              match count_value self (default_count self c) with
              | PyInt c' =>
                  if bool_decide (value_shape e' = value_shape (_element self))
                  then Argument_init e' (default_function_space self fs)
                         (Some c') w2
                  else (Raise (ValidationError
                                 (Plain "Cannot reconstruct an Argument with a different value shape.")),
                        w2)
              | _ => (Raise (ValidationError not_an_int), w2)
              end
          end
      | _ => (Raise (ValidationError not_an_element), w1)
      end
  end.
Proof.
  intros Hown. unfold reconstruct. rewrite Hown. unfold bind at 1.
  destruct (py_format _ (element_value self (default_element self e)) w)
    as [[m1|ex1] w1]; [| reflexivity].
  destruct (element_value self (default_element self e)); try reflexivity.
  unfold bind at 1.
  destruct (py_format _ (count_value self (default_count self c)) w1)
    as [[m2|ex2] w2]; [| reflexivity].
  destruct (count_value self (default_count self c)); try reflexivity.
  unfold bind, ufl_assert. now destruct (bool_decide _).
Qed.

Lemma is_own_false_cases (lc le : local) :
  is_own lc && is_own le = false <-> (le <> Own \/ lc <> Own).
Proof.
  destruct lc, le; simpl; split; intros H; try discriminate H; try reflexivity.
  - destruct H as [H|H]; now contradict H.
  - left. discriminate.
  - right. discriminate.
  - left. discriminate.
Qed.

(** What a returning call has done. *)
Lemma reconstruct_Return_inv self e fs c w a w' :
  reconstruct self e fs c w = (Return a, w') ->
  (a = self /\ w' = w /\
   default_element self e = Own /\ default_count self c = Own) \/
  (arg_oid a = next_oid w /\ next_oid w' = S (next_oid w) /\
   function_space a = default_function_space self fs /\
   element_value self (default_element self e) = PyElement (element a) /\
   count_value self (default_count self c) = PyInt (count a) /\
   value_shape (element a) = value_shape (element self) /\
   (default_element self e <> Own \/ default_count self c <> Own)).
Proof.
  destruct (is_own (default_count self c) && is_own (default_element self e))
    eqn:Hown.
  - apply andb_true_iff in Hown. destruct Hown as [Hc He].
    destruct (default_count self c) eqn:Ec; [| discriminate Hc].
    destruct (default_element self e) eqn:Ee; [| discriminate He].
    rewrite (reconstruct_same self e fs c w Ee Ec).
    intros [= <- <-]. left. repeat split.
  - rewrite (reconstruct_checked _ _ _ _ _ Hown).
    apply is_own_false_cases in Hown.
    destruct (py_format_inv "Expecting an element, not %s"
                (element_value self (default_element self e)) w)
      as [-> | (msg & items & -> & _)]; [| discriminate].
    destruct (element_value self (default_element self e)) as [| | |e'| | | |];
      try discriminate.
    destruct (py_format_inv "Expecting an int, not %s"
                (count_value self (default_count self c)) w)
      as [-> | (msg & items & -> & _)]; [| discriminate].
    destruct (count_value self (default_count self c)) as [c'| | | | | | |];
      try discriminate.
    destruct (bool_decide (value_shape e' = value_shape (_element self))) eqn:Hs;
      [| discriminate].
    apply bool_decide_eq_true in Hs.
    intros [= <- <-]. right. repeat split; assumption.
Qed.

(** What a raising call has done: nothing; and what it raises. *)
Lemma reconstruct_Raise_inv self e fs c w ex w' :
  reconstruct self e fs c w = (Raise ex, w') ->
  w' = w /\
  match ex with
  | ValidationError _ => True
  | TypeError _ => format_fails e \/ format_fails c
  | _ => False
  end.
Proof.
  destruct (is_own (default_count self c) && is_own (default_element self e))
    eqn:Hown.
  - apply andb_true_iff in Hown. destruct Hown as [Hc He].
    destruct (default_count self c) eqn:Ec; [| discriminate Hc].
    destruct (default_element self e) eqn:Ee; [| discriminate He].
    rewrite (reconstruct_same self e fs c w Ee Ec). discriminate.
  - rewrite (reconstruct_checked _ _ _ _ _ Hown).
    destruct (py_format_inv "Expecting an element, not %s"
                (element_value self (default_element self e)) w)
      as [-> | (msg & items & -> & Hv & Hlen)].
    2:{ intros [= <- <-]. split; [reflexivity |]. left.
        destruct (default_element self e) as [|v] eqn:Ee; [discriminate Hv |].
        simpl in Hv. subst v.
        destruct (default_element_Given _ _ _ Ee) as [-> _].
        now exists items. }
    destruct (element_value self (default_element self e)) as [| | |e'| | | |];
      try (intros [= <- <-]; now split).
    destruct (py_format_inv "Expecting an int, not %s"
                (count_value self (default_count self c)) w)
      as [-> | (msg & items & -> & Hv & Hlen)].
    2:{ intros [= <- <-]. split; [reflexivity |]. right.
        destruct (default_count self c) as [|v] eqn:Ec; [discriminate Hv |].
        simpl in Hv. subst v.
        destruct (default_count_Given _ _ _ Ec) as [-> _].
        now exists items. }
    destruct (count_value self (default_count self c)) as [c'| | | | | | |];
      try (intros [= <- <-]; now split).
    destruct (bool_decide (value_shape e' = value_shape (_element self)));
      [discriminate |].
    intros [= <- <-]. now split.
Qed.


(** C2: a call that supplies only a function space different from the
    current one takes the early return of line 57: it yields [self], still
    bound to the old function space, and constructs nothing.  The claim asks
    for a new Argument carrying the supplied function space. *)
Theorem reconstruct_function_space_only_returns_self :
  Interval.V2 <> function_space Interval.v /\
  reconstruct Interval.v None (Some Interval.V2) None Interval.w0
  = (Return Interval.v, Interval.w0).
Proof. split; [discriminate | reflexivity]. Qed.

(** The same for every Argument and every function space. *)
Lemma reconstruct_ignores_function_space self V w :
  reconstruct self None (Some V) None w = (Return self, w).
Proof. now apply reconstruct_same. Qed.




(** ** TestFunction and TrialFunction *)

(** C10: [TestFunction(V)] is an Argument with count -2 and
    [TrialFunction(V)] one with count -1, each on V's element and bound to
    V itself. *)
Theorem TestFunction_TrialFunction_counts (V : FunctionSpace) (w : engine) :
  (exists a w', TestFunction V w = (Return a, w') /\
     count a = -2 /\ element a = ufl_element V /\ function_space a = V) /\
  (exists a w', TrialFunction V w = (Return a, w') /\
     count a = -1 /\ element a = ufl_element V /\ function_space a = V).
Proof.
  split; eexists; eexists; (split; [reflexivity |]); repeat split.
Qed.

(** ** derivative, adjoint and action *)

Section OperatorFacts.

Context (Form : Type).
Context (ufl_derivative : Form -> pyval -> pyval -> string + Form).
Context (ufl_adjoint : Form -> pyval -> string + Form).
Context (ufl_action : Form -> Function -> Form).
Context (extract_arguments : Form -> list Argument).

Lemma engine_call_no_RuntimeError (r : string + Form) w msg w' :
  engine_call Form r w <> (Raise (RuntimeError msg), w').
Proof. destruct r; discriminate. Qed.

(** C5: without [reordered_arguments], a form whose arguments are [v]
    and [u] has its adjoint taken with two new Arguments, the first on
    the element and function space of [u], the second on those of [v],
    each numbered by default from the class counter; a supplied
    [reordered_arguments] reaches the engine as it is. *)
Theorem adjoint_passes_swapped_arguments (form : Form) (v u : Argument)
    (w : engine) :
  extract_arguments form = [v; u] ->
  let u' := mkArgument (next_oid w) (element u) (function_space u)
              (_globalcount w) in
  let v' := mkArgument (S (next_oid w)) (element v) (function_space v)
              (_globalcount w + 1) in
  Argument_init (element u) (function_space u) None w
    = (Return u', mkEngine (S (next_oid w)) (_globalcount w + 1)) /\
  Argument_init (element v) (function_space v) None
      (mkEngine (S (next_oid w)) (_globalcount w + 1))
    = (Return v', mkEngine (S (S (next_oid w))) (_globalcount w + 2)) /\
  adjoint Form ufl_adjoint extract_arguments form None w
    = engine_call Form
        (ufl_adjoint form (PyTuple [PyArgument u'; PyArgument v']))
        (mkEngine (S (S (next_oid w))) (_globalcount w + 2)) /\
  forall (reordered_arguments : pyval) (w1 : engine),
    adjoint Form ufl_adjoint extract_arguments form (Some reordered_arguments) w1
    = engine_call Form (ufl_adjoint form reordered_arguments) w1.
Proof.
  intros Hargs u' v'.
  assert (Hu : Argument_init (element u) (function_space u) None w
               = (Return u', mkEngine (S (next_oid w)) (_globalcount w + 1))).
  { rewrite Argument_init_Return. simpl. now rewrite Z.leb_refl. }
  assert (Hv : Argument_init (element v) (function_space v) None
                 (mkEngine (S (next_oid w)) (_globalcount w + 1))
               = (Return v', mkEngine (S (S (next_oid w))) (_globalcount w + 2))).
  { rewrite Argument_init_Return. simpl. rewrite Z.leb_refl.
    do 2 f_equal. lia. }
  repeat split; try assumption.
  unfold adjoint. rewrite Hargs.
  rewrite (bind_Return _ _ _ _ _ Hu), (bind_Return _ _ _ _ _ Hv).
  reflexivity.
Qed.

(** C8: [derivative] raises its [RuntimeError] exactly when [du] is
    absent and [u] is no Function; with [du] absent and [u] a Function,
    [du] is a new Argument on the function space of [u], on that space's
    element and numbered by default, and the engine differentiates with
    it; a supplied [du] reaches the engine as it is. *)
Theorem derivative_RuntimeError_iff (form : Form) (u : pyval)
    (du : option pyval) (w : engine) :
  ((exists msg w', derivative Form ufl_derivative form u du w
                   = (Raise (RuntimeError msg), w'))
   <-> (du = None /\ is_Function u = false)) /\
  (forall f, u = PyFunction f -> du = None ->
     let V := function_space_of f in
     let du' := mkArgument (next_oid w) (ufl_element V) V (_globalcount w) in
     Argument_init (ufl_element V) V None w
       = (Return du', mkEngine (S (next_oid w)) (_globalcount w + 1)) /\
     derivative Form ufl_derivative form u du w
       = engine_call Form (ufl_derivative form u (PyArgument du'))
           (mkEngine (S (next_oid w)) (_globalcount w + 1))) /\
  (forall d, du = Some d ->
     derivative Form ufl_derivative form u du w
     = engine_call Form (ufl_derivative form u d) w).
Proof.
  assert (Hinit : forall V : FunctionSpace,
    Argument_init (ufl_element V) V None w
    = (Return (mkArgument (next_oid w) (ufl_element V) V (_globalcount w)),
       mkEngine (S (next_oid w)) (_globalcount w + 1))).
  { intros V. rewrite Argument_init_Return. simpl. now rewrite Z.leb_refl. }
  split; [split | split].
  - intros (msg & w' & H). destruct du as [d|].
    + exfalso. exact (engine_call_no_RuntimeError _ _ _ _ H).
    + split; [reflexivity |].
      destruct u; try reflexivity.
      exfalso. unfold derivative in H.
      rewrite (bind_Return _ _ _ _ _ (Hinit _)) in H.
      exact (engine_call_no_RuntimeError _ _ _ _ H).
  - intros [-> Hu]. exists "Can't compute derivative for form"%string, w.
    destruct u; try reflexivity. discriminate Hu.
  - intros f -> -> V du'. split; [apply Hinit |].
    unfold derivative. now rewrite (bind_Return _ _ _ _ _ (Hinit _)).
  - intros d ->. reflexivity.
Qed.

Context {V : Type} (zero : V).
Context (assemble_values : Form -> gmap nat (nat -> V) -> nat -> V).
Context (test_space : Form -> FunctionSpace).


End OperatorFacts.

(** ** The boundary passes *)

Section PassFacts.

Context {V : Type} (zero : V).

Lemma zero_pass_at (bcs : list DirichletBC) (d : nat -> V) (i : nat) :
  zero_pass zero bcs d i = if constrained bcs i then zero else d i.
Proof.
  revert d. induction bcs as [|bc bcs IH]; intros d; [reflexivity |].
  unfold zero_pass in *. simpl. rewrite IH. unfold zero_at.
  change (constrained (bc :: bcs) i)
    with (bool_decide (i ∈ node_set bc) || constrained bcs i).
  destruct (bool_decide (i ∈ node_set bc)); simpl;
    now destruct (constrained bcs i).
Qed.

Lemma restore_pass_at (bcs : list DirichletBC) (src d : nat -> V) (i : nat) :
  restore_pass bcs src d i = if constrained bcs i then src i else d i.
Proof.
  revert d. induction bcs as [|bc bcs IH]; intros d; [reflexivity |].
  unfold restore_pass in *. simpl. rewrite IH. unfold copy_at.
  change (constrained (bc :: bcs) i)
    with (bool_decide (i ∈ node_set bc) || constrained bcs i).
  destruct (bool_decide (i ∈ node_set bc)); simpl;
    now destruct (constrained bcs i).
Qed.

End PassFacts.

(** ** Action.assemble *)

Section AssembleFacts.

Context (Form : Type) (ufl_action : Form -> Function -> Form).
Context {V : Type} (zero : V).
Context (assemble_values : Form -> gmap nat (nat -> V) -> nat -> V).
Context (test_space : Form -> FunctionSpace).

Local Abbreviation values_of := (values_of zero).
Local Abbreviation assemble := (assemble Form ufl_action zero assemble_values test_space).
Local Abbreviation solving_assemble := (solving_assemble Form assemble_values test_space).
Local Abbreviation pass := (pass zero).
Local Abbreviation zeroed := (zeroed zero).

Implicit Types (h : gmap nat (nat -> V)) (out x : Function)
               (bcs : list DirichletBC) (l i : nat).

(** *** One assignment *)

Lemma assign_lookup_ne out (e : rhs V) s h l :
  l <> fn_loc out -> assign zero out e s h !! l = h !! l.
Proof. intros Hl. unfold assign. now rewrite lookup_insert_ne. Qed.

Lemma assign_values_other out (e : rhs V) s h x :
  fn_loc x <> fn_loc out -> values_of (assign zero out e s h) x = values_of h x.
Proof. intros Hl. unfold values_of at 1. now rewrite assign_lookup_ne. Qed.

Lemma assign_all_values out (e : rhs V) h :
  values_of (assign zero out e None h) out
  = match e with Const c => fun _ => c | Fn f => values_of h f end.
Proof.
  unfold assign, values_of at 1. now rewrite lookup_insert_eq.
Qed.

Lemma assign_subset_values out (e : rhs V) s h i :
  values_of (assign zero out e (Some s) h) out i
  = if bool_decide (i ∈ s)
    then match e with Const c => c | Fn f => values_of h f i end
    else values_of h out i.
Proof.
  unfold assign, values_of at 1. rewrite lookup_insert_eq. simpl.
  now destruct e.
Qed.

Lemma assign_is_Some out (e : rhs V) s h l :
  is_Some (h !! l) -> is_Some (assign zero out e s h !! l).
Proof.
  intros H. unfold assign.
  destruct (decide (fn_loc out = l)) as [->|Hne].
  - rewrite lookup_insert_eq. eauto.
  - now rewrite lookup_insert_ne.
Qed.

(** *** A pass of assignments into [out], one per boundary condition *)

Lemma pass_lookup_ne out e bcs h l :
  l <> fn_loc out -> pass out e bcs h !! l = h !! l.
Proof.
  intros Hl. revert h. induction bcs as [|bc bcs IH]; intros h; [reflexivity |].
  unfold pass in *. simpl. rewrite IH. now apply assign_lookup_ne.
Qed.

Lemma pass_is_Some out e bcs h l :
  is_Some (h !! l) -> is_Some (pass out e bcs h !! l).
Proof.
  revert h. induction bcs as [|bc bcs IH]; intros h H; [exact H |].
  unfold pass in *. simpl. apply IH. now apply assign_is_Some.
Qed.

(** The zero pass: zero wherever some condition constrains the node. *)
Lemma zero_pass_values out bcs h i :
  values_of (pass out (Const zero) bcs h) out i
  = if constrained bcs i then zero else values_of h out i.
Proof.
  revert h. induction bcs as [|bc bcs IH]; intros h; [reflexivity |].
  unfold pass in *. simpl. rewrite IH, assign_subset_values.
  change (constrained (bc :: bcs) i)
    with (bool_decide (i ∈ node_set bc) || constrained bcs i).
  destruct (bool_decide (i ∈ node_set bc)); simpl;
    now destruct (constrained bcs i).
Qed.

(** The restore pass from a function other than [out]. *)
Lemma restore_pass_values out x bcs h i :
  fn_loc x <> fn_loc out ->
  values_of (pass out (Fn x) bcs h) out i
  = if constrained bcs i then values_of h x i else values_of h out i.
Proof.
  intros Hx. revert h. induction bcs as [|bc bcs IH]; intros h; [reflexivity |].
  unfold pass in *. simpl.
  rewrite IH, assign_subset_values, assign_values_other by exact Hx.
  change (constrained (bc :: bcs) i)
    with (bool_decide (i ∈ node_set bc) || constrained bcs i).
  destruct (bool_decide (i ∈ node_set bc)); simpl;
    now destruct (constrained bcs i).
Qed.

(** *** The whole of [assemble] with boundary conditions *)

Lemma assemble_unfold (a : Form) x bcs tensor h :
  let out := out_of x tensor h in
  let hz := zeroed x tensor bcs h in
  let r := mkFunction (fresh (dom hz)) (test_space (ufl_action a out)) in
  assemble (mkAction Form a x (Some bcs)) tensor h
  = (out,
     pass out (Fn x) bcs
       (assign zero out (Fn r) None
          (<[fn_loc r := assemble_values (ufl_action a out) hz]> hz))).
Proof. unfold zeroed, out_of. destruct tensor; reflexivity. Qed.

Lemma fresh_not_live h l : is_Some (h !! l) -> l <> fresh (dom h).
Proof.
  intros H ->. apply (is_fresh (dom h)). now apply elem_of_dom.
Qed.

Lemma zeroed_is_Some x tensor bcs h l :
  is_Some (h !! l) -> is_Some (zeroed x tensor bcs h !! l).
Proof.
  intros H. unfold zeroed. apply pass_is_Some.
  destruct (decide (fn_loc (out_of x tensor h) = l)) as [->|Hne].
  - rewrite lookup_insert_eq. eauto.
  - now rewrite lookup_insert_ne.
Qed.

Lemma zeroed_lookup_ne x tensor bcs h l :
  l <> fn_loc (out_of x tensor h) -> zeroed x tensor bcs h !! l = h !! l.
Proof.
  intros Hl. unfold zeroed. rewrite pass_lookup_ne by exact Hl.
  now rewrite lookup_insert_ne.
Qed.

Lemma zeroed_values x tensor bcs h i :
  values_of (zeroed x tensor bcs h) (out_of x tensor h) i
  = if constrained bcs i then zero else values_of h x i.
Proof.
  unfold zeroed. rewrite zero_pass_values.
  unfold values_of at 1. now rewrite lookup_insert_eq.
Qed.

(** Every cell that existed before the call, other than the one of
    [out], is as it was: the writes go to [out] and to the new function
    that holds the assembled action. *)
Lemma assemble_frame (a : Form) x bcs tensor h l :
  is_Some (h !! l) -> l <> fn_loc (out_of x tensor h) ->
  (assemble (mkAction Form a x (Some bcs)) tensor h).2 !! l = h !! l.
Proof.
  intros Hl Hne. rewrite assemble_unfold. simpl.
  rewrite pass_lookup_ne, assign_lookup_ne by exact Hne.
  rewrite lookup_insert_ne.
  - now apply zeroed_lookup_ne.
  - simpl. intros Heq. symmetry in Heq. revert Heq.
    apply fresh_not_live. now apply zeroed_is_Some.
Qed.

(** When [out] is not [x]: the values of [out] at the end. *)
Lemma assemble_values_at (a : Form) x bcs tensor h i :
  is_Some (h !! fn_loc x) ->
  fn_loc x <> fn_loc (out_of x tensor h) ->
  values_of (assemble (mkAction Form a x (Some bcs)) tensor h).2
    (out_of x tensor h) i
  = if constrained bcs i then values_of h x i
    else assemble_values (ufl_action a (out_of x tensor h))
           (zeroed x tensor bcs h) i.
Proof.
  intros Hx Hne. rewrite assemble_unfold. simpl.
  set (out := out_of x tensor h). set (hz := zeroed x tensor bcs h).
  set (r := mkFunction (fresh (dom hz)) _).
  assert (Hr : fn_loc x <> fn_loc r).
  { apply fresh_not_live. now apply zeroed_is_Some. }
  rewrite restore_pass_values by exact Hne.
  rewrite assign_all_values, assign_values_other by exact Hne.
  assert (Hxv : values_of (<[fresh (dom hz) := assemble_values (ufl_action a out) hz]> hz) x
                = values_of h x).
  { unfold values_of. rewrite lookup_insert_ne by (intros E; now apply Hr).
    subst hz. now rewrite zeroed_lookup_ne. }
  rewrite Hxv. unfold values_of at 2. simpl. now rewrite lookup_insert_eq.
Qed.

Lemma out_of_None_fresh x h :
  is_Some (h !! fn_loc x) -> fn_loc x <> fn_loc (out_of x None h).
Proof. apply fresh_not_live. Qed.

Lemma assemble_result (a : Form) x bcs tensor h :
  (assemble (mkAction Form a x (Some bcs)) tensor h).1 = out_of x tensor h.
Proof. now rewrite assemble_unfold. Qed.

Lemma assemble_out_is_Some (a : Form) x bcs tensor h :
  is_Some ((assemble (mkAction Form a x (Some bcs)) tensor h).2
             !! fn_loc (out_of x tensor h)).
Proof.
  rewrite assemble_unfold. simpl. apply pass_is_Some.
  unfold assign. rewrite lookup_insert_eq. eauto.
Qed.

(** C1, as amended: when [tensor] is absent or another object than [x],
    [assemble] returns [out] (a new function, or [tensor]); after the
    first loop [out] holds the copy of [x] zeroed by the conditions in
    their order and nothing else has changed; at the end [out] holds the
    assembled action of [a] on that zeroed [out], with the values of [x]
    restored by the conditions in their order.  So a constrained node of
    the result has the value of [x], and an unconstrained one the value
    of the action on the boundary-zeroed copy. *)
Theorem assemble_with_bcs_steps (a : Form) x bcs tensor h :
  is_Some (h !! fn_loc x) ->
  (forall t, tensor = Some t -> fn_loc t <> fn_loc x) ->
  let out := out_of x tensor h in
  let hz := zeroed x tensor bcs h in
  let acted := assemble_values (ufl_action a out) hz in
  let result := assemble (mkAction Form a x (Some bcs)) tensor h in
  result.1 = out /\
  (tensor = None -> h !! fn_loc out = None) /\
  (forall i, values_of hz out i = zero_pass zero bcs (values_of h x) i) /\
  (forall l, l <> fn_loc out -> hz !! l = h !! l) /\
  (forall i, values_of result.2 out i
             = restore_pass bcs (values_of h x) acted i) /\
  (forall i, constrained bcs i = true ->
             values_of result.2 out i = values_of h x i) /\
  (forall i, constrained bcs i = false ->
             values_of result.2 out i = acted i).
Proof.
  intros Hx Ht out hz acted result.
  assert (Hne : fn_loc x <> fn_loc out).
  { subst out. destruct tensor as [t|].
    - simpl. intros E. now apply (Ht t).
    - now apply out_of_None_fresh. }
  assert (Hval : forall i, values_of result.2 out i
                  = if constrained bcs i then values_of h x i else acted i).
  { intros i. subst result out. now apply assemble_values_at. }
  split; [apply assemble_result |].
  split.
  { intros ->. simpl. apply (not_elem_of_dom (D := gset nat)).
    apply is_fresh. }
  split; [intros i; rewrite zero_pass_at; apply zeroed_values |].
  split; [intros l; apply zeroed_lookup_ne |].
  split; [intros i; rewrite restore_pass_at; apply Hval |].
  split; intros i Hi; rewrite Hval, Hi; reflexivity.
Qed.

(** C4: two conditions whose node sets share node [i], no [tensor]: the
    result at [i] is the value of [x] there, in either order of the two
    conditions, so both orders agree at [i]. *)
Theorem assemble_overlap_either_order (a : Form) x (bc1 bc2 : DirichletBC) h i :
  is_Some (h !! fn_loc x) ->
  i ∈ node_set bc1 -> i ∈ node_set bc2 ->
  let r12 := assemble (mkAction Form a x (Some [bc1; bc2])) None h in
  let r21 := assemble (mkAction Form a x (Some [bc2; bc1])) None h in
  values_of r12.2 r12.1 i = values_of h x i /\
  values_of r21.2 r21.1 i = values_of h x i /\
  values_of r12.2 r12.1 i = values_of r21.2 r21.1 i.
Proof.
  intros Hx H1 H2 r12 r21.
  assert (Hne := out_of_None_fresh x h Hx).
  assert (E12 : values_of r12.2 r12.1 i = values_of h x i).
  { subst r12. rewrite assemble_result, assemble_values_at by assumption.
    unfold constrained. simpl. now rewrite (bool_decide_eq_true_2 _ H1). }
  assert (E21 : values_of r21.2 r21.1 i = values_of h x i).
  { subst r21. rewrite assemble_result, assemble_values_at by assumption.
    unfold constrained. simpl. now rewrite (bool_decide_eq_true_2 _ H2). }
  repeat split; congruence.
Qed.

(** C9: with boundary conditions, a supplied [tensor] is the object
    returned, it is the only function that existed before the call whose
    data the call may change, and (when it is not [x]) its data are the
    result at the end; without [tensor], the function returned did not
    exist before, is not [x], and [x] and every other function keep their
    data. *)
Theorem assemble_in_place_or_new (a : Form) x bcs h :
  is_Some (h !! fn_loc x) ->
  (forall t,
     let r := assemble (mkAction Form a x (Some bcs)) (Some t) h in
     r.1 = t /\ is_Some (r.2 !! fn_loc t) /\
     (forall l, is_Some (h !! l) -> l <> fn_loc t -> r.2 !! l = h !! l) /\
     (fn_loc t <> fn_loc x -> forall i,
        values_of r.2 t i
        = if constrained bcs i then values_of h x i
          else assemble_values (ufl_action a t) (zeroed x (Some t) bcs h) i)) /\
  (let r := assemble (mkAction Form a x (Some bcs)) None h in
   h !! fn_loc r.1 = None /\ is_Some (r.2 !! fn_loc r.1) /\
   r.1 <> x /\ r.2 !! fn_loc x = h !! fn_loc x /\
   forall l, is_Some (h !! l) -> r.2 !! l = h !! l).
Proof.
  intros Hx. split.
  - intros t r. subst r. split; [apply assemble_result |].
    split; [apply (assemble_out_is_Some a x bcs (Some t)) |].
    split; [intros l Hl Hne; now apply assemble_frame |].
    intros Hne i.
    apply (assemble_values_at a x bcs (Some t) h i Hx).
    simpl. intros E. now apply Hne.
  - intros r. subst r. rewrite assemble_result.
    assert (Hfresh : h !! fn_loc (out_of x None h) = None).
    { simpl. apply (not_elem_of_dom (D := gset nat)). apply is_fresh. }
    assert (Hframe : forall l, is_Some (h !! l) ->
              (assemble (mkAction Form a x (Some bcs)) None h).2 !! l = h !! l).
    { intros l Hl. apply assemble_frame; [exact Hl |].
      now apply fresh_not_live. }
    split; [exact Hfresh |].
    split; [apply assemble_out_is_Some |].
    split; [| split; [now apply Hframe | exact Hframe]].
    intros E. rewrite E in Hfresh. rewrite Hfresh in Hx.
    now destruct Hx.
Qed.

End AssembleFacts.

(** ** The instance on the interval *)



Lemma adjoint_passes_swapped_arguments_witness :
  Interval.extract_arguments Interval.Bilinear = [Interval.v; Interval.u] /\
  adjoint Interval.form Interval.ufl_adjoint Interval.extract_arguments
    Interval.Bilinear None Interval.w0
  = (Return (Interval.Adjoint
       (PyTuple [PyArgument (mkArgument 4 Interval.P1 Interval.V1 2);
                 PyArgument (mkArgument 5 Interval.P1 Interval.V1 3)])),
     mkEngine 6 4).
Proof.
  split; [reflexivity |].
  destruct (adjoint_passes_swapped_arguments Interval.form Interval.ufl_adjoint
              Interval.extract_arguments Interval.Bilinear Interval.v Interval.u
              Interval.w0 eq_refl) as (_ & _ & H & _).
  exact H.
Defined.

Lemma derivative_RuntimeError_iff_witness :
  (@None pyval = None /\ is_Function (PyStr "u") = false) /\
  exists msg w',
    derivative Interval.form Interval.ufl_derivative Interval.Bilinear
      (PyStr "u") None Interval.w0
    = (Raise (RuntimeError msg), w').
Proof.
  assert (H : @None pyval = None /\ is_Function (PyStr "u") = false)
    by (split; reflexivity).
  split; [exact H |].
  destruct (derivative_RuntimeError_iff Interval.form Interval.ufl_derivative
              Interval.Bilinear (PyStr "u") None Interval.w0) as ((_ & Hraise) & _).
  exact (Hraise H).
Defined.

Lemma assemble_with_bcs_steps_witness :
  is_Some (Interval.h !! fn_loc Interval.x) /\
  (forall t, Some Interval.t = Some t -> fn_loc t <> fn_loc Interval.x) /\
  let result :=
    Interval.assemble'
      (mkAction Interval.form Interval.Bilinear Interval.x
         (Some [Interval.bc1; Interval.bc2]))
      (Some Interval.t) Interval.h in
  result.1 = Interval.t /\
  values_of 0 result.2 Interval.t 1%nat = 6 /\
  values_of 0 result.2 Interval.t 3%nat = 108.
Proof.
  assert (Hx : is_Some (Interval.h !! fn_loc Interval.x))
    by (eexists; reflexivity).
  assert (Ht : forall t, Some Interval.t = Some t -> fn_loc t <> fn_loc Interval.x).
  { intros t [= <-]. discriminate. }
  split; [exact Hx |]. split; [exact Ht |].
  destruct (assemble_with_bcs_steps Interval.form Interval.ufl_action 0
              Interval.assemble_values Interval.test_space Interval.Bilinear
              Interval.x [Interval.bc1; Interval.bc2] (Some Interval.t)
              Interval.h Hx Ht) as (H1 & _ & _ & _ & _ & Hc & Hu).
  split; [exact H1 |].
  split; [exact (Hc 1%nat eq_refl) | exact (Hu 3%nat eq_refl)].
Defined.

(** C1, as stated, fails when [tensor] is [x] itself: then [out] is [x],
    the first loop zeroes [x], and the last loop copies [x] onto itself, so
    node 0, constrained by [bc1] and holding 5 before the call, ends with
    the assembled value 100. *)
Lemma assemble_into_x_loses_boundary_values :
  let result :=
    Interval.assemble'
      (mkAction Interval.form Interval.Bilinear Interval.x (Some [Interval.bc1]))
      (Some Interval.x) Interval.h in
  constrained [Interval.bc1] 0 = true /\
  values_of 0 Interval.h Interval.x 0%nat = 5 /\
  result.1 = Interval.x /\
  values_of 0 result.2 result.1 0%nat = 100.
Proof. repeat split. Qed.

Lemma assemble_overlap_either_order_witness :
  is_Some (Interval.h !! fn_loc Interval.x) /\
  1%nat ∈ node_set Interval.bc1 /\ 1%nat ∈ node_set Interval.bc2 /\
  let r12 :=
    Interval.assemble'
      (mkAction Interval.form Interval.Bilinear Interval.x
         (Some [Interval.bc1; Interval.bc2])) None Interval.h in
  let r21 :=
    Interval.assemble'
      (mkAction Interval.form Interval.Bilinear Interval.x
         (Some [Interval.bc2; Interval.bc1])) None Interval.h in
  values_of 0 r12.2 r12.1 1%nat = 6 /\
  values_of 0 r21.2 r21.1 1%nat = 6 /\
  values_of 0 r12.2 r12.1 1%nat = values_of 0 r21.2 r21.1 1%nat.
Proof.
  assert (Hx : is_Some (Interval.h !! fn_loc Interval.x))
    by (eexists; reflexivity).
  assert (H1 : 1%nat ∈ node_set Interval.bc1)
    by (vm_compute; reflexivity).
  assert (H2 : 1%nat ∈ node_set Interval.bc2)
    by (vm_compute; reflexivity).
  split; [exact Hx |]. split; [exact H1 |]. split; [exact H2 |].
  exact (assemble_overlap_either_order Interval.form Interval.ufl_action 0
           Interval.assemble_values Interval.test_space Interval.Bilinear
           Interval.x Interval.bc1 Interval.bc2 Interval.h 1%nat Hx H1 H2).
Defined.

Lemma assemble_in_place_or_new_witness :
  is_Some (Interval.h !! fn_loc Interval.x) /\
  (let r :=
     Interval.assemble'
       (mkAction Interval.form Interval.Bilinear Interval.x (Some [Interval.bc1]))
       (Some Interval.t) Interval.h in
   r.1 = Interval.t /\
   r.2 !! fn_loc Interval.x = Interval.h !! fn_loc Interval.x /\
   values_of 0 Interval.h Interval.t 3%nat = 1 /\
   values_of 0 r.2 Interval.t 3%nat = 108) /\
  (let r :=
     Interval.assemble'
       (mkAction Interval.form Interval.Bilinear Interval.x (Some [Interval.bc1]))
       None Interval.h in
   Interval.h !! fn_loc r.1 = None /\ r.1 <> Interval.x /\
   r.2 !! fn_loc Interval.x = Interval.h !! fn_loc Interval.x).
Proof.
  assert (Hx : is_Some (Interval.h !! fn_loc Interval.x))
    by (eexists; reflexivity).
  split; [exact Hx |].
  destruct (assemble_in_place_or_new Interval.form Interval.ufl_action 0
              Interval.assemble_values Interval.test_space Interval.Bilinear
              Interval.x [Interval.bc1] Interval.h Hx) as (Ht & Hn).
  split.
  - destruct (Ht Interval.t) as (E & _ & Hframe & Hvalues).
    split; [exact E |].
    split; [apply Hframe; [exact Hx | discriminate] |].
    split; [reflexivity |].
    assert (Hne : fn_loc Interval.t <> fn_loc Interval.x) by discriminate.
    exact (Hvalues Hne 3%nat).
  - destruct Hn as (Hfresh & _ & Hne & Hxsame & _).
    split; [exact Hfresh |]. split; [exact Hne | exact Hxsame].
Defined.

(** * Further properties of the code *)

(** ** Argument.reconstruct: what a call can yield *)

(** X1: [reconstruct] never changes the value shape: whatever Argument a
    call returns has an element of the value shape of the current one. *)
Theorem reconstruct_preserves_value_shape self e fs c w a w' :
  reconstruct self e fs c w = (Return a, w') ->
  value_shape (element a) = value_shape (element self).
Proof.
  intros H.
  destruct (reconstruct_Return_inv _ _ _ _ _ _ _ H)
    as [(-> & _) | (_ & _ & _ & _ & _ & Hs & _)]; [reflexivity | exact Hs].
Qed.

Lemma reconstruct_preserves_value_shape_witness :
  reconstruct Interval.v (Some (PyElement Interval.P2)) None None Interval.w0
  = (Return (mkArgument 4 Interval.P2 Interval.V1 (-2)), mkEngine 5 2) /\
  value_shape (element (mkArgument 4 Interval.P2 Interval.V1 (-2)))
  = value_shape (element Interval.v).
Proof.
  assert (H : reconstruct Interval.v (Some (PyElement Interval.P2)) None None
                Interval.w0
              = (Return (mkArgument 4 Interval.P2 Interval.V1 (-2)), mkEngine 5 2))
    by reflexivity.
  split; [exact H |].
  exact (reconstruct_preserves_value_shape _ _ _ _ _ _ _ H).
Defined.

(** X2: a call that returns does one of two things.  It returns [self] and
    constructs nothing, and then neither the element nor the count differed;
    or it returns a newly constructed object whose function space is the
    supplied one (the current one if none was supplied), whose element and
    count are the supplied ones where they differed and the current ones
    elsewhere. *)
Theorem reconstruct_Return_cases self e fs c w a w' :
  reconstruct self e fs c w = (Return a, w') ->
  (a = self /\ w' = w /\
   default_element self e = Own /\ default_count self c = Own) \/
  (arg_oid a = next_oid w /\ next_oid w' = S (next_oid w) /\
   function_space a = default_function_space self fs /\
   element_value self (default_element self e) = PyElement (element a) /\
   count_value self (default_count self c) = PyInt (count a) /\
   (default_element self e <> Own \/ default_count self c <> Own)).
Proof.
  intros H.
  destruct (reconstruct_Return_inv _ _ _ _ _ _ _ H)
    as [Hself | (Hoid & Hnext & Hfs & He & Hc & _ & Hdiff)].
  - now left.
  - right. repeat split; assumption.
Qed.

Lemma reconstruct_Return_cases_witness :
  reconstruct Interval.v None (Some Interval.V2) (Some (PyInt 0)) Interval.w0
  = (Return (mkArgument 4 Interval.P1 Interval.V2 0), mkEngine 5 2) /\
  function_space (mkArgument 4 Interval.P1 Interval.V2 0)
  = default_function_space Interval.v (Some Interval.V2).
Proof.
  assert (H : reconstruct Interval.v None (Some Interval.V2) (Some (PyInt 0))
                Interval.w0
              = (Return (mkArgument 4 Interval.P1 Interval.V2 0), mkEngine 5 2))
    by reflexivity.
  split; [exact H |].
  destruct (reconstruct_Return_cases _ _ _ _ _ _ _ H)
    as [(Hself & _) | (_ & _ & Hfs & _)].
  - discriminate Hself.
  - exact Hfs.
Defined.

(** X3: for an Argument that exists, the object returned is [self] exactly
    when neither the element nor the count differs from the current one;
    the function space has no say in it. *)
Theorem reconstruct_returns_self_iff self e fs c w :
  (arg_oid self < next_oid w)%nat ->
  (reconstruct self e fs c w).1 = Return self <->
  (default_element self e = Own /\ default_count self c = Own).
Proof.
  intros Hold. split.
  - destruct (reconstruct self e fs c w) as [[a|ex] w'] eqn:H;
      simpl; [| discriminate].
    intros [= ->].
    destruct (reconstruct_Return_inv _ _ _ _ _ _ _ H)
      as [(_ & _ & He & Hc) | (Hoid & _)]; [now split | lia].
  - intros [He Hc]. now rewrite reconstruct_same.
Qed.

Lemma reconstruct_returns_self_iff_witness :
  (arg_oid Interval.v < next_oid Interval.w0)%nat /\
  (default_element Interval.v (Some (PyElement Interval.P1)) = Own /\
   default_count Interval.v (Some (PyFloat (-2))) = Own) /\
  (reconstruct Interval.v (Some (PyElement Interval.P1)) (Some Interval.V2)
     (Some (PyFloat (-2))) Interval.w0).1 = Return Interval.v.
Proof.
  assert (Hold : (arg_oid Interval.v < next_oid Interval.w0)%nat)
    by (vm_compute; lia).
  assert (Hown : default_element Interval.v (Some (PyElement Interval.P1)) = Own /\
                 default_count Interval.v (Some (PyFloat (-2))) = Own)
    by (split; reflexivity).
  split; [exact Hold |]. split; [exact Hown |].
  exact (proj2 (reconstruct_returns_self_iff Interval.v _ (Some Interval.V2) _
                  Interval.w0 Hold) Hown).
Defined.

(** X4: a call that raises has constructed nothing: the numbering is as
    before the call.  It raises the validation error of [ufl_assert], or,
    when a tuple not of length one was passed as element or count, the
    [TypeError] of formatting the message on line 59 or 61. *)
Theorem reconstruct_Raise_cases self e fs c w ex w' :
  reconstruct self e fs c w = (Raise ex, w') ->
  w' = w /\
  match ex with
  | ValidationError _ => True
  | TypeError _ => format_fails e \/ format_fails c
  | _ => False
  end.
Proof. apply reconstruct_Raise_inv. Qed.

Lemma reconstruct_Raise_cases_witness :
  reconstruct Interval.v None None (Some (PyStr "two")) Interval.w0
  = (Raise (ValidationError
              (Formatted "Expecting an int, not %s" (PyStr "two"))),
     Interval.w0) /\
  reconstruct Interval.v None None (Some (PyTuple [PyInt 1; PyInt 2])) Interval.w0
  = (Raise (TypeError "not all arguments converted during string formatting"),
     Interval.w0) /\
  (format_fails (@None pyval) \/
   format_fails (Some (PyTuple [PyInt 1; PyInt 2]))).
Proof.
  assert (H1 : reconstruct Interval.v None None (Some (PyStr "two")) Interval.w0
               = (Raise (ValidationError
                           (Formatted "Expecting an int, not %s" (PyStr "two"))),
                  Interval.w0)) by reflexivity.
  assert (H2 : reconstruct Interval.v None None
                 (Some (PyTuple [PyInt 1; PyInt 2])) Interval.w0
               = (Raise (TypeError
                           "not all arguments converted during string formatting"),
                  Interval.w0)) by reflexivity.
  split; [exact H1 |]. split; [exact H2 |].
  exact (proj2 (reconstruct_Raise_cases _ _ _ _ _ _ _ H2)).
Defined.

(** X5: a supplied function space does take effect when the count changes
    with it: the call constructs an Argument on the current element, bound
    to the supplied function space, with the new count. *)
Theorem reconstruct_function_space_with_new_count self V (n : Z) w :
  n <> count self ->
  reconstruct self None (Some V) (Some (PyInt n)) w
  = Argument_init (element self) V (Some n) w.
Proof.
  intros Hn. unfold reconstruct, element. simpl.
  assert (Hq : (n =? _count self) = false) by now apply Z.eqb_neq.
  rewrite Hq. simpl.
  unfold bind, ufl_assert.
  rewrite bool_decide_eq_true_2 by reflexivity. simpl.
  unfold default_function_space.
  destruct (bool_decide (V = _function_space self)) eqn:HV; [| reflexivity].
  apply bool_decide_eq_true in HV. now rewrite HV.
Qed.

Lemma reconstruct_function_space_with_new_count_witness :
  0 <> count Interval.v /\
  reconstruct Interval.v None (Some Interval.V2) (Some (PyInt 0)) Interval.w0
  = Argument_init (element Interval.v) Interval.V2 (Some 0) Interval.w0.
Proof.
  assert (H : 0 <> count Interval.v) by discriminate.
  split; [exact H |].
  exact (reconstruct_function_space_with_new_count Interval.v Interval.V2 0
           Interval.w0 H).
Defined.

(** X6: renumbering an Argument and numbering the result back gives an
    Argument with the element, function space and count of the first, but
    it is a third object, not the first one. *)
Theorem reconstruct_count_round_trip self (n : Z) w :
  n <> count self ->
  (arg_oid self < next_oid w)%nat ->
  exists a1 w1 a2 w2,
    reconstruct self None None (Some (PyInt n)) w = (Return a1, w1) /\
    reconstruct a1 None None (Some (PyInt (count self))) w1 = (Return a2, w2) /\
    element a2 = element self /\
    function_space a2 = function_space self /\
    count a2 = count self /\
    a2 <> self /\ a2 <> a1.
Proof.
  intros Hn Hold.
  assert (Hq : (n =? _count self) = false) by now apply Z.eqb_neq.
  assert (Hq' : (_count self =? n) = false)
    by (apply Z.eqb_neq; intros E; now apply Hn).
  eexists; eexists; eexists; eexists.
  split.
  { unfold reconstruct. simpl. rewrite Hq. simpl.
    unfold bind, ufl_assert. rewrite bool_decide_eq_true_2 by reflexivity.
    reflexivity. }
  split.
  { unfold reconstruct, count. simpl. rewrite Hq'. simpl.
    unfold bind, ufl_assert. rewrite bool_decide_eq_true_2 by reflexivity.
    reflexivity. }
  repeat split; intros E; apply (f_equal arg_oid) in E; simpl in E; lia.
Qed.

Lemma reconstruct_count_round_trip_witness :
  0 <> count Interval.v /\
  (arg_oid Interval.v < next_oid Interval.w0)%nat /\
  exists a1 w1 a2 w2,
    reconstruct Interval.v None None (Some (PyInt 0)) Interval.w0 = (Return a1, w1) /\
    reconstruct a1 None None (Some (PyInt (count Interval.v))) w1 = (Return a2, w2) /\
    element a2 = element Interval.v /\
    function_space a2 = function_space Interval.v /\
    count a2 = count Interval.v /\
    a2 <> Interval.v /\ a2 <> a1.
Proof.
  assert (Hn : 0 <> count Interval.v) by discriminate.
  assert (Hold : (arg_oid Interval.v < next_oid Interval.w0)%nat)
    by (vm_compute; lia).
  split; [exact Hn |]. split; [exact Hold |].
  exact (reconstruct_count_round_trip Interval.v 0 Interval.w0 Hn Hold).
Defined.

(** ** adjoint: forms that are not bilinear *)

Section AdjointArity.

Context (Form : Type).
Context (ufl_adjoint : Form -> pyval -> string + Form).
Context (extract_arguments : Form -> list Argument).

(** X7: without [reordered_arguments], [adjoint] fails on the unpacking of
    line 188 exactly when the form does not have two arguments; it has then
    constructed no Argument and has not called the engine. *)
Theorem adjoint_ValueError_iff (form : Form) (w : engine) :
  ((exists msg w', adjoint Form ufl_adjoint extract_arguments form None w
                   = (Raise (ValueError msg), w'))
   <-> length (extract_arguments form) <> 2%nat) /\
  (forall ex w', length (extract_arguments form) <> 2%nat ->
     adjoint Form ufl_adjoint extract_arguments form None w = (Raise ex, w') ->
     w' = w /\ exists msg, ex = ValueError msg).
Proof.
  unfold adjoint.
  destruct (extract_arguments form) as [|v [|u [|t l]]]; simpl.
  - split; [split; [intros _; lia | intros _; eexists; eexists; reflexivity] |].
    intros ex w' _ [= <- <-]. split; [reflexivity | eexists; reflexivity].
  - split; [split; [intros _; lia | intros _; eexists; eexists; reflexivity] |].
    intros ex w' _ [= <- <-]. split; [reflexivity | eexists; reflexivity].
  - split; [| intros ex w' Hl; now contradict Hl].
    split; [| intros Hl; now contradict Hl].
    intros (msg & w' & H). exfalso.
    unfold bind in H. simpl in H.
    destruct (ufl_adjoint form _); discriminate H.
  - split; [split; [intros _; lia | intros _; eexists; eexists; reflexivity] |].
    intros ex w' _ [= <- <-]. split; [reflexivity | eexists; reflexivity].
Qed.

End AdjointArity.

Lemma adjoint_ValueError_iff_witness :
  length (Interval.extract_arguments (Interval.ActionOn Interval.x)) <> 2%nat /\
  exists msg w',
    adjoint Interval.form Interval.ufl_adjoint Interval.extract_arguments
      (Interval.ActionOn Interval.x) None Interval.w0
    = (Raise (ValueError msg), w').
Proof.
  assert (H : length (Interval.extract_arguments (Interval.ActionOn Interval.x))
              <> 2%nat) by discriminate.
  split; [exact H |].
  destruct (adjoint_ValueError_iff Interval.form Interval.ufl_adjoint
              Interval.extract_arguments (Interval.ActionOn Interval.x)
              Interval.w0) as ((_ & Hraise) & _).
  exact (Hraise H).
Defined.

(** ** Action.assemble: more on the boundary algorithm *)

Section AssembleMore.

Context (Form : Type) (ufl_action : Form -> Function -> Form).
Context {V : Type} (zero : V).
Context (assemble_values : Form -> gmap nat (nat -> V) -> nat -> V).
Context (test_space : Form -> FunctionSpace).

Local Abbreviation values_of := (values_of zero).
Local Abbreviation assemble := (assemble Form ufl_action zero assemble_values test_space).
Local Abbreviation pass := (pass zero).
Local Abbreviation zeroed := (zeroed zero).

Implicit Types (h : gmap nat (nat -> V)) (out x : Function)
               (bcs : list DirichletBC) (l i : nat).

(** *** A whole pass as one write *)

Lemma pass_Const_eq out (c : V) bcs h d :
  h !! fn_loc out = Some d ->
  pass out (Const c) bcs h
  = <[fn_loc out := fun i => if constrained bcs i then c else d i]> h.
Proof.
  revert h d. induction bcs as [|bc bcs IH]; intros h d Hd.
  - simpl. symmetry. now apply insert_id.
  - unfold pass in *. simpl. unfold assign at 2.
    erewrite IH by apply lookup_insert_eq.
    rewrite insert_insert_eq. f_equal.
    apply functional_extensionality. intros i.
    change (constrained (bc :: bcs) i)
      with (bool_decide (i ∈ node_set bc) || constrained bcs i).
    unfold values_of. rewrite Hd. simpl.
    destruct (bool_decide (i ∈ node_set bc)); simpl;
      now destruct (constrained bcs i).
Qed.

Lemma pass_Fn_eq out x bcs h d :
  fn_loc x <> fn_loc out ->
  h !! fn_loc out = Some d ->
  pass out (Fn x) bcs h
  = <[fn_loc out := fun i => if constrained bcs i then values_of h x i else d i]> h.
Proof.
  intros Hx. revert h d. induction bcs as [|bc bcs IH]; intros h d Hd.
  - simpl. symmetry. now apply insert_id.
  - unfold pass in *. simpl. unfold assign at 2.
    erewrite IH by apply lookup_insert_eq.
    rewrite insert_insert_eq. f_equal.
    apply functional_extensionality. intros i.
    change (constrained (bc :: bcs) i)
      with (bool_decide (i ∈ node_set bc) || constrained bcs i).
    assert (Hxv : values_of
                    (<[fn_loc out := fun i0 =>
                         if bool_decide (i0 ∈ node_set bc)
                         then values_of h x i0 else values_of h out i0]> h) x
                  = values_of h x).
    { unfold values_of.
      rewrite lookup_insert_ne by (intros E; now apply Hx). reflexivity. }
    rewrite Hxv. unfold values_of at 3. rewrite Hd. simpl.
    destruct (bool_decide (i ∈ node_set bc)); simpl;
      now destruct (constrained bcs i).
Qed.

(** Copying a function onto itself, at whatever nodes, changes nothing. *)
Lemma pass_self_eq out x bcs h :
  fn_loc x = fn_loc out ->
  is_Some (h !! fn_loc out) ->
  pass out (Fn x) bcs h = h.
Proof.
  intros Hx. revert h. induction bcs as [|bc bcs IH]; intros h [d Hd];
    [reflexivity |].
  unfold pass in *. simpl.
  assert (Hid : assign zero out (Fn x) (Some (node_set bc)) h = h).
  { unfold assign. apply insert_id. rewrite Hd. f_equal.
    apply functional_extensionality. intros i.
    unfold values_of. rewrite Hx, Hd. simpl.
    now destruct (bool_decide (i ∈ node_set bc)). }
  rewrite Hid. apply IH. eauto.
Qed.

Lemma pass_same_constrained out (e : rhs V) bcs bcs' h :
  (forall i, constrained bcs i = constrained bcs' i) ->
  is_Some (h !! fn_loc out) ->
  pass out e bcs h = pass out e bcs' h.
Proof.
  intros Hc [d Hd]. destruct e as [c|f].
  - rewrite !(pass_Const_eq _ _ _ _ d) by exact Hd. f_equal.
    apply functional_extensionality. intros i. now rewrite Hc.
  - destruct (decide (fn_loc f = fn_loc out)) as [E|E].
    + rewrite !pass_self_eq by eauto. reflexivity.
    + rewrite !(pass_Fn_eq _ _ _ _ d) by assumption. f_equal.
      apply functional_extensionality. intros i. now rewrite Hc.
Qed.

(** X8: what [assemble] yields depends on the boundary conditions only
    through the set of nodes they constrain: two collections constraining
    the same nodes, in whatever order and with whatever repetitions, give
    the same returned function and the same data, for every [tensor]. *)
Theorem assemble_same_constrained_nodes (a : Form) x bcs bcs' tensor h :
  (forall i, constrained bcs i = constrained bcs' i) ->
  assemble (mkAction Form a x (Some bcs)) tensor h
  = assemble (mkAction Form a x (Some bcs')) tensor h.
Proof.
  intros Hc. rewrite !assemble_unfold. simpl.
  assert (Hz : zeroed x tensor bcs h = zeroed x tensor bcs' h).
  { unfold zeroed. apply pass_same_constrained; [exact Hc |].
    rewrite lookup_insert_eq. eauto. }
  rewrite Hz. f_equal.
  apply pass_same_constrained; [exact Hc |].
  unfold assign. rewrite lookup_insert_eq. eauto.
Qed.

(** X9: an empty list of boundary conditions is not the absence of
    boundary conditions: [assemble] still works on [out], a copy of [x]
    or [tensor] overwritten with [x], and every node of the result is the
    assembled action of [a] on that [out]. *)
Theorem assemble_empty_bcs (a : Form) x tensor h :
  is_Some (h !! fn_loc x) ->
  (forall t, tensor = Some t -> fn_loc t <> fn_loc x) ->
  let out := out_of x tensor h in
  let result := assemble (mkAction Form a x (Some [])) tensor h in
  result.1 = out /\
  forall i, values_of result.2 out i
            = assemble_values (ufl_action a out)
                (<[fn_loc out := values_of h x]> h) i.
Proof.
  intros Hx Ht out result. split; [apply assemble_result |].
  assert (Hne : fn_loc x <> fn_loc out).
  { subst out. destruct tensor as [t|].
    - simpl. intros E. now apply (Ht t).
    - now apply out_of_None_fresh. }
  intros i. subst result out.
  rewrite (assemble_values_at Form ufl_action zero assemble_values test_space)
    by assumption.
  reflexivity.
Qed.

(** X10: with boundary conditions, what [tensor] held before the call does
    not matter, as long as [tensor] is not [x]: its data are overwritten
    with those of [x] before anything reads them. *)
Theorem assemble_forgets_tensor_contents (a : Form) x bcs (t : Function)
    (d : nat -> V) h :
  fn_loc t <> fn_loc x ->
  assemble (mkAction Form a x (Some bcs)) (Some t) (<[fn_loc t := d]> h)
  = assemble (mkAction Form a x (Some bcs)) (Some t) h.
Proof.
  intros Hne. unfold assemble. simpl.
  assert (E : assign zero t (Fn x) None (<[fn_loc t := d]> h)
              = assign zero t (Fn x) None h).
  { unfold assign. rewrite insert_insert_eq. f_equal.
    unfold values_of.
    rewrite lookup_insert_ne by exact Hne. reflexivity. }
  now rewrite E.
Qed.

(** Read node by node, the same needs no extensionality. *)
Lemma pass_self_values out x bcs h i :
  fn_loc x = fn_loc out ->
  values_of (pass out (Fn x) bcs h) out i = values_of h out i.
Proof.
  intros Hx. revert h. induction bcs as [|bc bcs IH]; intros h; [reflexivity |].
  unfold pass in *. simpl. rewrite IH, (assign_subset_values zero).
  assert (E : values_of h x = values_of h out)
    by (unfold values_of; now rewrite Hx).
  rewrite E. now destruct (bool_decide (i ∈ node_set bc)).
Qed.

(** X11: when [tensor] is [x] itself, the last loop copies [x] onto itself:
    [x] is returned and each of its nodes, constrained or not, holds the
    assembled action on the boundary-zeroed data. *)
Theorem assemble_into_x (a : Form) x bcs h :
  let result := assemble (mkAction Form a x (Some bcs)) (Some x) h in
  result.1 = x /\
  forall i, values_of result.2 x i
            = assemble_values (ufl_action a x) (zeroed x (Some x) bcs h) i.
Proof.
  intros result. subst result. rewrite assemble_unfold. simpl.
  split; [reflexivity |]. intros i.
  rewrite pass_self_values by reflexivity.
  rewrite (assign_all_values zero).
  unfold values_of. simpl. now rewrite lookup_insert_eq.
Qed.

End AssembleMore.

(** *** The instance on the interval *)

Lemma assemble_same_constrained_nodes_witness :
  (forall i, constrained [Interval.bc1; Interval.bc2] i
             = constrained [Interval.bc2; Interval.bc1; Interval.bc1] i) /\
  Interval.assemble'
    (mkAction Interval.form Interval.Bilinear Interval.x
       (Some [Interval.bc1; Interval.bc2])) (Some Interval.t) Interval.h
  = Interval.assemble'
      (mkAction Interval.form Interval.Bilinear Interval.x
         (Some [Interval.bc2; Interval.bc1; Interval.bc1])) (Some Interval.t)
      Interval.h.
Proof.
  assert (H : forall i, constrained [Interval.bc1; Interval.bc2] i
                        = constrained [Interval.bc2; Interval.bc1; Interval.bc1] i).
  { intros i. unfold constrained, existsb.
    destruct (bool_decide (i ∈ node_set Interval.bc1));
      destruct (bool_decide (i ∈ node_set Interval.bc2)); reflexivity. }
  split; [exact H |].
  exact (assemble_same_constrained_nodes Interval.form Interval.ufl_action 0
           Interval.assemble_values Interval.test_space Interval.Bilinear
           Interval.x _ _ (Some Interval.t) Interval.h H).
Defined.

Lemma assemble_empty_bcs_witness :
  is_Some (Interval.h !! fn_loc Interval.x) /\
  (forall t, Some Interval.t = Some t -> fn_loc t <> fn_loc Interval.x) /\
  let result :=
    Interval.assemble'
      (mkAction Interval.form Interval.Bilinear Interval.x (Some []))
      (Some Interval.t) Interval.h in
  result.1 = Interval.t /\
  values_of 0 result.2 Interval.t 0%nat = 105.
Proof.
  assert (Hx : is_Some (Interval.h !! fn_loc Interval.x))
    by (eexists; reflexivity).
  assert (Ht : forall t, Some Interval.t = Some t -> fn_loc t <> fn_loc Interval.x).
  { intros t [= <-]. discriminate. }
  split; [exact Hx |]. split; [exact Ht |].
  destruct (assemble_empty_bcs Interval.form Interval.ufl_action 0
              Interval.assemble_values Interval.test_space Interval.Bilinear
              Interval.x (Some Interval.t) Interval.h Hx Ht) as (H1 & Hv).
  split; [exact H1 | exact (Hv 0%nat)].
Defined.

Lemma assemble_forgets_tensor_contents_witness :
  fn_loc Interval.t <> fn_loc Interval.x /\
  Interval.assemble'
    (mkAction Interval.form Interval.Bilinear Interval.x (Some [Interval.bc1]))
    (Some Interval.t) (<[fn_loc Interval.t := fun _ => 9]> Interval.h)
  = Interval.assemble'
      (mkAction Interval.form Interval.Bilinear Interval.x (Some [Interval.bc1]))
      (Some Interval.t) Interval.h.
Proof.
  assert (H : fn_loc Interval.t <> fn_loc Interval.x) by discriminate.
  split; [exact H |].
  exact (assemble_forgets_tensor_contents Interval.form Interval.ufl_action 0
           Interval.assemble_values Interval.test_space Interval.Bilinear
           Interval.x [Interval.bc1] Interval.t (fun _ => 9) Interval.h H).
Defined.
